(** * The native interface of [glucp.JPGlucose]

    [lib/glucose/parallel/glucp_JPGlucose.h] is the machine generated JNI
    header of the Java class [glucp.JPGlucose]: five prototypes, each below a
    comment block giving the Java class, method and JVM descriptor.  The
    header holds declarations only, so the first part of this development
    embeds the declarations as data and proves what they declare.  The second
    part is a model of the handle protocol behind the declarations. *)

From stdpp Require Import base option list strings gmap.
From Stdlib Require Import ZArith Lia Ascii.

#[local] Set Warnings "-clear-no-such-hyp".

Local Open Scope Z_scope.

(** ** Part 1: the declarations *)

Module Header.

(** The C types that occur in JNI prototypes.  The header itself uses
    [JNIEnv *], [jclass], [jlong], [jint], [jboolean] and [jintArray];
    [jobject] is what the second parameter of a non-static native method
    would be, and [jvoid] the result of a method returning nothing. *)
Inductive ctype : Type :=
  | JNIEnv_ptr
  | jclass
  | jobject
  | jboolean
  | jint
  | jlong
  | jintArray
  | jvoid.

Global Instance ctype_eq_dec : EqDecision ctype.
Proof. solve_decision. Defined.

(** One prototype of the header together with its comment block:
<<
/*
 * Class:     d_class
 * Method:    d_method
 * Signature: d_signature
 */
JNIEXPORT d_ret JNICALL d_symbol
  (d_params);
>> *)
Record native_decl : Type := NativeDecl {
  d_class : string;
  d_method : string;
  d_signature : string;
  d_ret : ctype;
  d_symbol : string;
  d_params : list ctype
}.

Global Instance native_decl_eq_dec : EqDecision native_decl.
Proof. solve_decision. Defined.

Definition Java_glucp_JPGlucose_ginit : native_decl :=
  {| d_class := "glucp_JPGlucose"; d_method := "ginit"; d_signature := "()J";
     d_ret := jlong; d_symbol := "Java_glucp_JPGlucose_ginit";
     d_params := [JNIEnv_ptr; jclass] |}.

Definition Java_glucp_JPGlucose_gadd : native_decl :=
  {| d_class := "glucp_JPGlucose"; d_method := "gadd"; d_signature := "(J[I)Z";
     d_ret := jboolean; d_symbol := "Java_glucp_JPGlucose_gadd";
     d_params := [JNIEnv_ptr; jclass; jlong; jintArray] |}.

Definition Java_glucp_JPGlucose_gsat : native_decl :=
  {| d_class := "glucp_JPGlucose"; d_method := "gsat"; d_signature := "(J)Z";
     d_ret := jboolean; d_symbol := "Java_glucp_JPGlucose_gsat";
     d_params := [JNIEnv_ptr; jclass; jlong] |}.

Definition Java_glucp_JPGlucose_gsat_1time : native_decl :=
  {| d_class := "glucp_JPGlucose"; d_method := "gsat_time"; d_signature := "(JI)Z";
     d_ret := jboolean; d_symbol := "Java_glucp_JPGlucose_gsat_1time";
     d_params := [JNIEnv_ptr; jclass; jlong; jint] |}.

Definition Java_glucp_JPGlucose_gderef : native_decl :=
  {| d_class := "glucp_JPGlucose"; d_method := "gderef"; d_signature := "(JI)I";
     d_ret := jint; d_symbol := "Java_glucp_JPGlucose_gderef";
     d_params := [JNIEnv_ptr; jclass; jlong; jint] |}.

(** The header, in the order of the file. *)
Definition glucp_JPGlucose : list native_decl :=
  [ Java_glucp_JPGlucose_ginit;
    Java_glucp_JPGlucose_gadd;
    Java_glucp_JPGlucose_gsat;
    Java_glucp_JPGlucose_gsat_1time;
    Java_glucp_JPGlucose_gderef ].

(** *** Reading a prototype *)

(** Every JNI prototype starts with two call-context parameters, the
    environment pointer and the receiver; the arguments of the Java method
    follow. *)
Definition context_params (d : native_decl) : list ctype := take 2 (d_params d).
Definition java_params (d : native_decl) : list ctype := drop 2 (d_params d).

(** The receiver: [jclass] for a static method, [jobject] for an instance
    method. *)
Definition receiver (d : native_decl) : option ctype := d_params d !! 1%nat.

Definition is_static (d : native_decl) : bool :=
  bool_decide (receiver d = Some jclass).

(** The first argument after the call context. *)
Definition first_arg (d : native_decl) : option ctype := head (java_params d).

Definition takes_handle (d : native_decl) : bool :=
  bool_decide (first_arg d = Some jlong).

Definition find_method (m : string) : option native_decl :=
  find (fun d => bool_decide (d_method d = m)) glucp_JPGlucose.

(** Modelled from the spec: the typedefs of [<jni.h>], which the header
    includes and which is not part of the repository.  The spec gives the
    handle as a 64-bit identifier, literals, the time bound and the variable
    index as 32-bit signed integers; a [jboolean] is a truth value and the
    remaining types are references, neither has an integer width here. *)
Definition bits (t : ctype) : option Z :=
  match t with
  | jlong => Some 64
  | jint => Some 32
  | _ => None
  end.

(** Reference types: what can point at a managed-side object. *)
Definition is_reference (t : ctype) : bool :=
  match t with
  | jclass | jobject | jintArray => true
  | _ => false
  end.

(** *** The JVM descriptor of the comment block *)

Inductive jtype : Type :=
  | TBoolean | TByte | TChar | TShort | TInt | TLong | TFloat | TDouble
  | TVoid
  | TArray (t : jtype).

Global Instance jtype_eq_dec : EqDecision jtype.
Proof. solve_decision. Defined.

(** One field type at the head of a descriptor, and the rest of the text. *)
Fixpoint parse_field (s : string) : option (jtype * string) :=
  match s with
  | String "Z" r => Some (TBoolean, r)
  | String "B" r => Some (TByte, r)
  | String "C" r => Some (TChar, r)
  | String "S" r => Some (TShort, r)
  | String "I" r => Some (TInt, r)
  | String "J" r => Some (TLong, r)
  | String "F" r => Some (TFloat, r)
  | String "D" r => Some (TDouble, r)
  | String "V" r => Some (TVoid, r)
  | String "[" r =>
      match parse_field r with
      | Some (t, r') => Some (TArray t, r')
      | None => None
      end
  | _ => None
  end%char.

(** The parameter types up to the closing parenthesis. *)
Fixpoint parse_params (fuel : nat) (s : string) : option (list jtype * string) :=
  match fuel with
  | O => None
  | S fuel' =>
      match s with
      | String ")" r => Some ([], r)
      | _ =>
          match parse_field s with
          | Some (t, r) =>
              match parse_params fuel' r with
              | Some (ts, r') => Some (t :: ts, r')
              | None => None
              end
          | None => None
          end
      end
  end%char.

Definition parse_descriptor (s : string) : option (list jtype * jtype) :=
  match s with
  | String "(" r =>
      match parse_params (String.length s) r with
      | Some (ps, r') =>
          match parse_field r' with
          | Some (t, EmptyString) => Some (ps, t)
          | _ => None
          end
      | None => None
      end
  | _ => None
  end%char.

(** The C type generated for a Java type, for the types of this header. *)
Definition ctype_of (t : jtype) : option ctype :=
  match t with
  | TBoolean => Some jboolean
  | TInt => Some jint
  | TLong => Some jlong
  | TVoid => Some jvoid
  | TArray TInt => Some jintArray
  | _ => None
  end.

(** JNI name mangling of a method name: an underscore becomes [_1]. *)
Fixpoint mangle (s : string) : string :=
  match s with
  | EmptyString => EmptyString
  | String "_" r => String "_" (String "1" (mangle r))
  | String c r => String c (mangle r)
  end%char.

Definition jni_symbol (cls meth : string) : string :=
  ("Java_" +:+ cls +:+ "_" +:+ mangle meth)%string.

(** A prototype agrees with its comment block: the symbol is the mangled
    class and method, the result and arguments are the C types of the
    descriptor, after the two call-context parameters of a static method. *)
Definition coherent (d : native_decl) : bool :=
  bool_decide (d_symbol d = jni_symbol (d_class d) (d_method d)) &&
  match parse_descriptor (d_signature d) with
  | Some (ps, r) =>
      bool_decide (ctype_of r = Some (d_ret d)) &&
      bool_decide (mapM ctype_of ps = Some (java_params d)) &&
      bool_decide (context_params d = [JNIEnv_ptr; jclass])
  | None => false
  end.

(** *** The operations of the spec *)

Inductive operation : Type :=
  | create
  | add_clause
  | solve
  | solve_with_timeout
  | deref.

Definition entry_point (op : operation) : native_decl :=
  match op with
  | create => Java_glucp_JPGlucose_ginit
  | add_clause => Java_glucp_JPGlucose_gadd
  | solve => Java_glucp_JPGlucose_gsat
  | solve_with_timeout => Java_glucp_JPGlucose_gsat_1time
  | deref => Java_glucp_JPGlucose_gderef
  end.

End Header.

(** ** Part 2: the handle protocol

    The bodies of the five native functions are not part of the sources;
    only their prototypes are.  This part models them from the spec: the
    data model of its section 3, the operations of its section 4.1 and the
    handle table of its section 9. *)

Module Protocol.

(** Modelled from the spec: a clause, the [jintArray] handed to [gadd], is an
    ordered sequence of signed integers, each a literal: positive for a
    variable asserted true, negative for a negated variable, the magnitude is
    the variable index. *)
Definition clause : Type := list Z.

(** A [jint] result: the signed 32-bit wrap-around of an integer. *)
Definition to_jint (z : Z) : Z := (z + 2 ^ 31) mod 2 ^ 32 - 2 ^ 31.

Definition in_jint (z : Z) : Prop := - 2 ^ 31 <= z < 2 ^ 31.

(** *** Evaluating clauses *)

(** Modelled from the spec: the truth of a literal, of a clause (a
    disjunction of literals) and of a database (all clauses at once) under an
    assignment of the variables.  The integer 0 is neither a variable nor a
    negated variable and is true under no assignment. *)
Definition lit_true (a : Z -> bool) (l : Z) : bool :=
  if bool_decide (0 < l) then a l
  else if bool_decide (l < 0) then negb (a (- l))
  else false.

Definition clause_true (a : Z -> bool) (c : clause) : bool :=
  existsb (lit_true a) c.

Definition formula_true (a : Z -> bool) (db : list clause) : bool :=
  forallb (clause_true a) db.

(** A model is stored as the list of the variables it makes true. *)
Definition holds (m : list Z) (v : Z) : bool := bool_decide (v ∈ m).

(** The variable indices of a clause database. *)
Definition vars_of (db : list clause) : list Z :=
  remove_dups (Z.abs <$> concat db).

(** *** The search engine *)

(** Modelled from the spec: the SAT engine, which lives outside the header
    and is not part of the sources.  The spec asks of it only that it decides
    whether an assignment makes all clauses true and that the timed variant
    abandons the search at its bound, so the engine is the plainest one: it
    tries the assignments of the occurring variables one after the other. *)
Fixpoint candidates (vs : list Z) : list (list Z) :=
  match vs with
  | [] => [[]]
  | v :: vs' => candidates vs' ++ (cons v <$> candidates vs')
  end.

Inductive outcome : Type :=
  | Sat (m : list Z)
  | Unsat
  | Unknown.

(** Modelled from the spec: the search.  Without a budget every candidate is
    tried (solve runs to completion); with a budget of [n] only the first
    [n], and the search is abandoned when candidates are left over (the timed
    variant returns early after its bound). *)
Definition search (budget : option nat) (db : list clause) : outcome :=
  let all := candidates (vars_of db) in
  let tried := match budget with Some n => take n all | None => all end in
  match find (fun m => formula_true (holds m) db) tried with
  | Some m => Sat m
  | None => if bool_decide (length tried < length all)%nat then Unknown else Unsat
  end.

(** The boolean that crosses the boundary: satisfiable or not. *)
Definition satisfiable (o : outcome) : bool :=
  match o with Sat _ => true | _ => false end.

Definition model_of (o : outcome) : option (list Z) :=
  match o with Sat m => Some m | _ => None end.

(** *** Solver instances and the handle table *)

(** Modelled from the spec: a solver instance, which the native side owns and
    the sources do not show: its clause database and the assignment state
    that a successful solve populates. *)
Record instance : Type := Instance {
  clauses : list clause;
  model : option (list Z)
}.

Definition fresh_instance : instance := {| clauses := []; model := None |}.

(** Modelled from the spec: the table of live instances (section 9 of the
    spec: a mapping from an opaque integer to the solver state it names).  A
    handle is the position of its instance; nothing is ever removed, the
    interface has no operation for it. *)
Abbreviation store := (list instance).

(** The position that a handle stands for; a negative [jlong] stands for
    none. *)
Definition slot (h : Z) : option nat :=
  if bool_decide (0 <= h) then Some (Z.to_nat h) else None.

Definition instance_at (s : store) (h : Z) : option instance :=
  match slot h with
  | Some n => s !! n
  | None => None
  end.

Definition put (s : store) (h : Z) (i : instance) : store :=
  <[Z.to_nat h := i]> s.

(** Modelled from the spec: what the spec leaves to the implementer is kept
    abstract; an engine fixes it. *)
Record engine : Type := Engine {
  (** which clauses [gadd] accepts (the spec: rejection of a malformed
      clause, cause unspecified) *)
  well_formed : clause -> bool;
  (** what [gderef] yields where the interface gives it no meaning, for a
      handle and a variable index *)
  unspecified : Z -> Z -> Z;
  (** how many candidates the timed search tries per second *)
  rate : nat
}.

(** The five native functions.  Each takes the table and the Java arguments
    and returns the table and the Java result. *)

(** Modelled from the spec: the body of [Java_glucp_JPGlucose_ginit], create:
    allocates a fresh solver instance with an empty clause database and
    returns its handle, unconditionally. *)
Definition ginit (s : store) : store * Z :=
  (s ++ [fresh_instance], Z.of_nat (length s)).

(** Modelled from the spec: the body of [Java_glucp_JPGlucose_gadd],
    add_clause: appends the clause to the database of the instance; false for
    a rejected clause and for a handle that names no instance, and then
    nothing changes.  The spec gives [gderef] no meaning while no solve has
    succeeded since the last clause was added: an accepted clause leaves the
    instance without a model. *)
Definition gadd (E : engine) (s : store) (h : Z) (c : clause) : store * bool :=
  match instance_at s h with
  | Some i =>
      if well_formed E c
      then (put s h {| clauses := clauses i ++ [c]; model := None |}, true)
      else (s, false)
  | None => (s, false)
  end.

(** Modelled from the spec: what the two solve operations share.  The
    search runs over the current database; its model, if it found one,
    becomes the assignment state of the instance, and the reply is whether it
    found one.  A handle that names no instance is answered false. *)
Definition solve_with (budget : option nat) (s : store) (h : Z) : store * bool :=
  match instance_at s h with
  | Some i =>
      let o := search budget (clauses i) in
      (put s h {| clauses := clauses i; model := model_of o |}, satisfiable o)
  | None => (s, false)
  end.

(** Modelled from the spec: the body of [Java_glucp_JPGlucose_gsat], solve:
    runs the search to completion. *)
Definition gsat (s : store) (h : Z) : store * bool :=
  solve_with None s h.

(** The candidates that fit into a bound; a negative bound is no time at
    all. *)
Definition budget_of (E : engine) (seconds : Z) : nat :=
  (rate E * Z.to_nat seconds)%nat.

(** Modelled from the spec: the body of [Java_glucp_JPGlucose_gsat_1time],
    solve_with_timeout: the same as solve, abandoned after the bound. *)
Definition gsat_time (E : engine) (s : store) (h : Z) (seconds : Z) : store * bool :=
  solve_with (Some (budget_of E seconds)) s h.

(** Modelled from the spec: the body of [Java_glucp_JPGlucose_gderef], deref:
    the value, 1 for true and 0 for false, that the last successful solve
    assigned to a variable of the database.  For everything else (no model,
    an index that is no variable of the database, a handle that names no
    instance) the spec fixes no result and the engine's is returned, as a
    [jint]. *)
Definition gderef (E : engine) (s : store) (h : Z) (v : Z) : Z :=
  match instance_at s h with
  | Some i =>
      match model i with
      | Some m =>
          if bool_decide (v ∈ vars_of (clauses i))
          then (if holds m v then 1 else 0)
          else to_jint (unspecified E h v)
      | None => to_jint (unspecified E h v)
      end
  | None => to_jint (unspecified E h v)
  end.

(** The assignment that the managed side reads through [gderef]. *)
Definition assignment (E : engine) (s : store) (h : Z) : Z -> bool :=
  fun v => bool_decide (gderef E s h v = 1).

(** *** Sessions *)

Inductive call : Type :=
  | Ginit
  | Gadd (h : Z) (c : clause)
  | Gsat (h : Z)
  | Gsat_time (h : Z) (seconds : Z)
  | Gderef (h : Z) (v : Z).

Inductive reply : Type :=
  | RHandle (h : Z)
  | RBool (b : bool)
  | RInt (v : Z).

Definition step (E : engine) (s : store) (c : call) : store * reply :=
  match c with
  | Ginit => let '(s', h) := ginit s in (s', RHandle h)
  | Gadd h cl => let '(s', b) := gadd E s h cl in (s', RBool b)
  | Gsat h => let '(s', b) := gsat s h in (s', RBool b)
  | Gsat_time h t => let '(s', b) := gsat_time E s h t in (s', RBool b)
  | Gderef h v => (s, RInt (gderef E s h v))
  end.

(** A session: the calls in order, with the log of calls and replies. *)
Fixpoint run (E : engine) (s : store) (cs : list call) : store * list (call * reply) :=
  match cs with
  | [] => (s, [])
  | c :: cs' =>
      let '(s1, r) := step E s c in
      let '(s2, log) := run E s1 cs' in
      (s2, (c, r) :: log)
  end.

(** The clauses that [gadd] accepted for a handle, oldest first. *)
Definition accepted_by (h : Z) (e : call * reply) : option clause :=
  match e with
  | (Gadd h' c, RBool true) => if bool_decide (h' = h) then Some c else None
  | _ => None
  end.

Definition submitted (h : Z) (log : list (call * reply)) : list clause :=
  omap (accepted_by h) log.

(** The handles that [ginit] returned. *)
Definition created_by (e : call * reply) : option Z :=
  match e with
  | (Ginit, RHandle h) => Some h
  | _ => None
  end.

Definition created (log : list (call * reply)) : list Z := omap created_by log.

(** A fresh instance is created, the clauses are added in order, and the
    instance is solved. *)
Definition add_all (E : engine) (s : store) (h : Z) (cs : list clause) : store :=
  foldl (fun st c => (gadd E st h c).1) s cs.

Definition solve_fresh (E : engine) (s : store) (cs : list clause) : bool :=
  let '(s1, h) := ginit s in (gsat (add_all E s1 h cs) h).2.

Definition solve_fresh_time (E : engine) (s : store) (cs : list clause)
    (seconds : Z) : bool :=
  let '(s1, h) := ginit s in (gsat_time E (add_all E s1 h cs) h seconds).2.

(** What a handle names in a table. *)
Definition clauses_at (s : store) (h : Z) : list clause :=
  from_option clauses [] (instance_at s h).

Definition model_at (s : store) (h : Z) : option (list Z) :=
  instance_at s h ≫= model.

Definition is_solve_on (h : Z) (c : call) : bool :=
  match c with
  | Gsat h' | Gsat_time h' _ => bool_decide (h' = h)
  | _ => false
  end.

(** A concrete engine for the examples: a clause is malformed when it holds
    the literal 0, an unspecified query yields -1, and the timed search tries
    two candidates per second. *)
Definition no_zero (c : clause) : bool := forallb (fun l => negb (l =? 0)) c.
Definition minus_one (h v : Z) : Z := -1.

Definition example_engine : engine :=
  {| well_formed := no_zero; unspecified := minus_one; rate := 2 |}.

(** The first example scenario of the spec, up to the solve: an instance
    with the clauses x1 or x2 and not x1. *)
Definition example_session : list call :=
  [Ginit; Gadd 0 [1; 2]; Gadd 0 [-1]].

End Protocol.

(** ** Part 3: the directives around the declarations

    Besides the prototypes the header consists of preprocessor directives:
    the inclusion of [<jni.h>], an include guard and an [extern "C"] block
    that is opened and closed under [__cplusplus]. *)

Module Preprocessor.

Import Header.

(** The lines of the header that are not comments or blank.  A prototype
    stands for its comment block and its two lines. *)
Inductive line : Type :=
  | Include (file : string)
  | Ifndef (macro : string)
  | Ifdef (macro : string)
  | Define (macro : string)
  | Endif
  | Extern_C_open
  | Close_brace
  | Prototype (d : native_decl).

Definition guard : string := "_Included_glucp_JPGlucose".
Definition cplusplus : string := "__cplusplus".

(** [glucp_JPGlucose.h], line by line. *)
Definition glucp_JPGlucose_h : list line :=
  [ Include "jni.h";                              (* line 2 *)
    Ifndef "_Included_glucp_JPGlucose";           (* line 5 *)
    Define "_Included_glucp_JPGlucose";           (* line 6 *)
    Ifdef "__cplusplus";                          (* line 7 *)
    Extern_C_open;                                (* line 8 *)
    Endif;                                        (* line 9 *)
    Prototype Java_glucp_JPGlucose_ginit;         (* lines 10-16 *)
    Prototype Java_glucp_JPGlucose_gadd;          (* lines 18-24 *)
    Prototype Java_glucp_JPGlucose_gsat;          (* lines 26-32 *)
    Prototype Java_glucp_JPGlucose_gsat_1time;    (* lines 34-40 *)
    Prototype Java_glucp_JPGlucose_gderef;        (* lines 42-48 *)
    Ifdef "__cplusplus";                          (* line 50 *)
    Close_brace;                                  (* line 51 *)
    Endif;                                        (* line 52 *)
    Endif ].                                      (* line 53 *)

(** The language linkage of a declared function: with C linkage its symbol
    is its name, with C++ linkage the name is mangled by the compiler. *)
Inductive linkage : Type := C_linkage | Cxx_linkage.

Global Instance linkage_eq_dec : EqDecision linkage.
Proof. solve_decision. Defined.

(** What a translation unit gets from the header. *)
Inductive event : Type :=
  | Included (file : string)
  | Declared (l : linkage) (d : native_decl).

(** The state of the preprocessor and of the enclosing declarations: the
    defined macros, for every open conditional whether its group is being
    processed (innermost first), the number of open [extern "C"] blocks and
    what was emitted so far. *)
Record pp_state : Type := PP {
  macros : gset string;
  conds : list bool;
  extern_blocks : nat;
  emitted : list event
}.

Definition active (st : pp_state) : bool := default true (head (conds st)).

Definition push_cond (b : bool) (st : pp_state) : pp_state :=
  {| macros := macros st; conds := (active st && b) :: conds st;
     extern_blocks := extern_blocks st; emitted := emitted st |}.

Definition emit (e : event) (st : pp_state) : pp_state :=
  {| macros := macros st; conds := conds st;
     extern_blocks := extern_blocks st; emitted := emitted st ++ [e] |}.

(** A compiler defines [__cplusplus] exactly when it compiles C++; there a
    function has C linkage only inside an [extern "C"] block. *)
Definition linkage_of (st : pp_state) : linkage :=
  if bool_decide (cplusplus ∈ macros st)
  then (if extern_blocks st is O then Cxx_linkage else C_linkage)
  else C_linkage.

(** One line.  [included] is what including a file does to the defined
    macros; the files themselves are not part of the repository.  A
    conditional is opened and closed also in a skipped group; every other
    line is skipped there.  An [#endif] without an open conditional and a
    closing brace without an open block are errors. *)
Definition pp_line (included : string -> gset string -> gset string)
    (st : pp_state) (l : line) : option pp_state :=
  match l with
  | Ifndef m => Some (push_cond (bool_decide (m ∉ macros st)) st)
  | Ifdef m => Some (push_cond (bool_decide (m ∈ macros st)) st)
  | Endif =>
      match conds st with
      | [] => None
      | _ :: cs =>
          Some {| macros := macros st; conds := cs;
                  extern_blocks := extern_blocks st; emitted := emitted st |}
      end
  | _ =>
      if active st then
        match l with
        | Include f =>
            Some (emit (Included f)
                    {| macros := included f (macros st); conds := conds st;
                       extern_blocks := extern_blocks st; emitted := emitted st |})
        | Define m =>
            Some {| macros := macros st ∪ {[m]}; conds := conds st;
                    extern_blocks := extern_blocks st; emitted := emitted st |}
        | Extern_C_open =>
            Some {| macros := macros st; conds := conds st;
                    extern_blocks := S (extern_blocks st); emitted := emitted st |}
        | Close_brace =>
            match extern_blocks st with
            | O => None
            | S n =>
                Some {| macros := macros st; conds := conds st;
                        extern_blocks := n; emitted := emitted st |}
            end
        | Prototype d => Some (emit (Declared (linkage_of st) d) st)
        | _ => Some st
        end
      else Some st
  end.

Fixpoint pp_lines (included : string -> gset string -> gset string)
    (st : pp_state) (ls : list line) : option pp_state :=
  match ls with
  | [] => Some st
  | l :: ls' =>
      match pp_line included st l with
      | Some st' => pp_lines included st' ls'
      | None => None
      end
  end.

(** Including a file at the top level of a translation unit in which the
    macros [defs] are defined.  At the end of the file every conditional
    must be closed; the result is the state reached. *)
Definition include_file (included : string -> gset string -> gset string)
    (file : list line) (defs : gset string) : option pp_state :=
  match pp_lines included
          {| macros := defs; conds := []; extern_blocks := 0; emitted := [] |}
          file with
  | Some st => if conds st is [] then Some st else None
  | None => None
  end.

Definition declarations (out : list event) : list (linkage * native_decl) :=
  omap (fun e => match e with Declared l d => Some (l, d) | _ => None end) out.

Definition prototypes (file : list line) : list native_decl :=
  omap (fun l => match l with Prototype d => Some d | _ => None end) file.

(** The header without its [extern "C"] lines 7-9 and 50-52, for
    comparison. *)
Definition without_extern_C : list line :=
  Include "jni.h" :: Ifndef guard :: Define guard ::
  (Prototype <$> glucp_JPGlucose) ++ [Endif].

(** An inclusion of [<jni.h>] for the examples: it defines its own guard. *)
Definition jni_h (file : string) (defs : gset string) : gset string :=
  defs ∪ {["_JAVASOFT_JNI_H_"%string]}.

End Preprocessor.

Import Header Protocol.

(** A decidable closed proposition is settled by evaluating its decision. *)
Ltac by_computation := apply (bool_decide_unpack _); vm_compute; exact I.

(** ** Facts about the search engine *)

Section Evaluation.

Implicit Types (a b : Z -> bool) (l v : Z) (c : clause) (db : list clause).

(** A literal is evaluated at its variable only. *)
Lemma lit_true_ext a b l :
  a (Z.abs l) = b (Z.abs l) -> lit_true a l = lit_true b l.
Proof.
  unfold lit_true. intros Hab.
  repeat case_bool_decide; try done.
  - by rewrite Z.abs_eq in Hab by lia.
  - rewrite Z.abs_neq in Hab by lia. by rewrite Hab.
Qed.

Lemma clause_true_ext a b c :
  (forall l, l ∈ c -> a (Z.abs l) = b (Z.abs l)) ->
  clause_true a c = clause_true b c.
Proof.
  unfold clause_true. induction c as [|l c IH]; intros Hab; [done|]. simpl.
  rewrite (lit_true_ext a b l) by (apply Hab; left).
  rewrite IH; [done|]. intros l' Hl'. apply Hab. by right.
Qed.

Lemma elem_of_vars_of v db :
  v ∈ vars_of db <-> exists c l, c ∈ db /\ l ∈ c /\ v = Z.abs l.
Proof.
  unfold vars_of. rewrite elem_of_remove_dups, list_elem_of_fmap. split.
  - intros (l & -> & Hl). apply list_elem_of_In, in_concat in Hl as (c & Hc & Hl).
    exists c, l. by rewrite !list_elem_of_In.
  - intros (c & l & Hc & Hl & ->). exists l. split; [done|].
    apply list_elem_of_In, in_concat. exists c. by rewrite <- !list_elem_of_In.
Qed.

Lemma formula_true_ext a b db :
  (forall v, v ∈ vars_of db -> a v = b v) ->
  formula_true a db = formula_true b db.
Proof.
  intros Hab. unfold formula_true.
  assert (Hin : forall c, c ∈ db -> clause_true a c = clause_true b c).
  { intros c Hc. apply clause_true_ext. intros l Hl. apply Hab.
    apply elem_of_vars_of. by exists c, l. }
  clear Hab. induction db as [|c db IH]; [done|]. simpl.
  rewrite Hin by left. rewrite IH; [done|]. intros c' Hc'. apply Hin. by right.
Qed.

Lemma formula_true_elem a db c :
  formula_true a db = true -> c ∈ db -> clause_true a c = true.
Proof.
  unfold formula_true. rewrite forallb_forall. intros H Hc.
  apply H. by apply list_elem_of_In.
Qed.

(** Every assignment, cut down to the variables [vs], is a candidate. *)
Lemma restriction_is_candidate a (vs : list Z) :
  filter (fun v => a v = true) vs ∈ candidates vs.
Proof.
  induction vs as [|v vs IH]; simpl.
  - rewrite filter_nil. by left.
  - rewrite filter_cons. apply elem_of_app. case_decide.
    + right. apply list_elem_of_fmap. by eexists.
    + by left.
Qed.

Lemma holds_restriction a (vs : list Z) v :
  v ∈ vs -> holds (filter (fun v => a v = true) vs) v = a v.
Proof.
  intros Hv. unfold holds. destruct (a v) eqn:Hav.
  - apply bool_decide_eq_true. by apply list_elem_of_filter.
  - apply bool_decide_eq_false. rewrite list_elem_of_filter. intros [? _]. congruence.
Qed.

Lemma length_candidates (vs : list Z) : length (candidates vs) = (2 ^ length vs)%nat.
Proof.
  induction vs as [|v vs IH]; [done|]. simpl.
  rewrite length_app, length_fmap, IH. lia.
Qed.

(** The search only reports a model that makes every clause true. *)
Lemma search_sound (budget : option nat) db (m : list Z) :
  search budget db = Sat m -> formula_true (holds m) db = true.
Proof.
  unfold search. destruct (find _ _) as [m'|] eqn:Hfind.
  - intros [= <-]. by apply find_some in Hfind as [_ ?].
  - by case_bool_decide.
Qed.

(** Run to completion, it never gives up ... *)
Lemma search_complete_decides db : search None db <> Unknown.
Proof.
  unfold search. destruct (find _ _); [done|].
  rewrite bool_decide_eq_false_2 by lia. done.
Qed.

(** ... and it finds a model whenever some assignment makes every clause
    true. *)
Lemma search_complete a db :
  formula_true a db = true -> exists m, search None db = Sat m.
Proof.
  intros Ha. unfold search. destruct (find _ _) as [m|] eqn:Hfind; [by eexists|].
  exfalso.
  pose proof (restriction_is_candidate a (vars_of db)) as Hin.
  apply list_elem_of_In in Hin.
  apply (find_none _ _ Hfind) in Hin.
  rewrite (formula_true_ext _ a) in Hin; [congruence|].
  intros v Hv. by apply holds_restriction.
Qed.

Lemma search_satisfiable_iff db :
  satisfiable (search None db) = true <-> exists a, formula_true a db = true.
Proof.
  split.
  - destruct (search None db) as [m| |] eqn:Hs; try done.
    intros _. exists (holds m). by eapply search_sound.
  - intros [a Ha]. apply search_complete in Ha as [m ->]. done.
Qed.

(** A budgeted search that reports a verdict agrees with the full search. *)
Lemma search_budget_unsat (n : nat) db :
  search (Some n) db = Unsat -> search None db = Unsat.
Proof.
  unfold search. destruct (find _ (take _ _)) eqn:Hfind; [done|].
  case_bool_decide as Hlen; [done|]. intros _.
  rewrite take_ge in Hfind by (rewrite length_take in Hlen; lia).
  rewrite Hfind. rewrite bool_decide_eq_false_2 by lia. done.
Qed.

End Evaluation.

(** ** Facts about the handle table *)

Section Table.

Implicit Types (s : store) (h v : Z) (i : instance) (E : engine).

Lemma instance_at_Some s h i :
  instance_at s h = Some i <-> 0 <= h /\ s !! Z.to_nat h = Some i.
Proof.
  unfold instance_at, slot. destruct (decide (0 <= h)) as [Hh|Hh].
  - rewrite bool_decide_eq_true_2 by done. tauto.
  - rewrite bool_decide_eq_false_2 by done. split; [done|tauto].
Qed.

Lemma instance_at_put s h i h' :
  is_Some (instance_at s h) ->
  instance_at (put s h i) h' = if bool_decide (h' = h) then Some i else instance_at s h'.
Proof.
  intros [i0 Hi0]. apply instance_at_Some in Hi0 as [Hh Hi0].
  apply lookup_lt_Some in Hi0. unfold put, instance_at, slot.
  destruct (decide (h' = h)) as [->|Hne].
  - rewrite !bool_decide_eq_true_2 by done.
    by apply list_lookup_insert_eq.
  - rewrite (bool_decide_eq_false_2 (h' = h)) by done.
    case_bool_decide; [|done]. apply list_lookup_insert_ne. lia.
Qed.

Lemma instance_at_ginit s h :
  instance_at (ginit s).1 h =
  if bool_decide (h = Z.of_nat (length s)) then Some fresh_instance
  else instance_at s h.
Proof.
  unfold ginit, instance_at, slot. cbn [fst].
  destruct (decide (h = Z.of_nat (length s))) as [->|Hne].
  - rewrite !bool_decide_eq_true_2 by lia. rewrite Nat2Z.id.
    rewrite lookup_app_r by lia. by rewrite Nat.sub_diag.
  - rewrite (bool_decide_eq_false_2 (h = _)) by done.
    case_bool_decide; [|done].
    destruct (decide (Z.to_nat h < length s)%nat) as [Hlt|Hge].
    + by rewrite lookup_app_l.
    + rewrite !lookup_ge_None_2; [done|lia|]. rewrite length_app. simpl. lia.
Qed.

(** The handle that [ginit] returns named nothing before and names an empty
    instance afterwards. *)
Lemma ginit_fresh s :
  instance_at s (ginit s).2 = None /\
  instance_at (ginit s).1 (ginit s).2 = Some fresh_instance.
Proof.
  split.
  - simpl. destruct (instance_at s _) eqn:Hi; [|done].
    apply instance_at_Some in Hi as [_ Hi%lookup_lt_Some]. lia.
  - rewrite instance_at_ginit. simpl. by rewrite bool_decide_eq_true_2.
Qed.

(** The handle fits the 64 bits of a [jlong] while the table has room. *)
Lemma ginit_handle_range s :
  Z.of_nat (length s) < 2 ^ 63 -> - 2 ^ 63 <= (ginit s).2 < 2 ^ 63.
Proof. simpl. lia. Qed.

Lemma instance_at_gadd E s h c h' :
  instance_at (gadd E s h c).1 h' =
  if bool_decide (h' = h) && (gadd E s h c).2
  then Some {| clauses := clauses_at s h ++ [c]; model := None |}
  else instance_at s h'.
Proof.
  unfold gadd, clauses_at. destruct (instance_at s h) as [i|] eqn:Hi; simpl.
  - destruct (well_formed E c); simpl.
    + rewrite instance_at_put by (by rewrite Hi). by case_bool_decide.
    + by rewrite andb_false_r.
  - by rewrite andb_false_r.
Qed.

Lemma instance_at_solve_with budget s h h' :
  instance_at (solve_with budget s h).1 h' =
  if bool_decide (h' = h)
  then (fun i => {| clauses := clauses i;
                    model := model_of (search budget (clauses i)) |})
       <$> instance_at s h
  else instance_at s h'.
Proof.
  unfold solve_with. destruct (instance_at s h) as [i|] eqn:Hi; simpl.
  - rewrite instance_at_put by (by rewrite Hi). done.
  - case_bool_decide; [by subst|done].
Qed.

Lemma solve_with_result budget s h :
  (solve_with budget s h).2 =
  from_option (fun i => satisfiable (search budget (clauses i))) false
    (instance_at s h).
Proof. unfold solve_with. by destruct (instance_at s h). Qed.

Lemma model_at_nil h : model_at [] h = None.
Proof. unfold model_at, instance_at. by destruct (slot h). Qed.

(** Where the instance holds no model, [gderef] yields whatever the engine
    yields. *)
Lemma gderef_no_model E s h v :
  model_at s h = None -> gderef E s h v = to_jint (unspecified E h v).
Proof.
  unfold model_at, gderef. destruct (instance_at s h) as [i|]; [|done].
  simpl. by intros ->.
Qed.

(** Where it holds one, the variables of the database read as 1 or 0. *)
Lemma gderef_model E s h v i (m : list Z) :
  instance_at s h = Some i -> model i = Some m -> v ∈ vars_of (clauses i) ->
  gderef E s h v = if holds m v then 1 else 0.
Proof.
  unfold gderef. intros -> -> Hv. by rewrite bool_decide_eq_true_2.
Qed.

Lemma assignment_model E s h v i (m : list Z) :
  instance_at s h = Some i -> model i = Some m -> v ∈ vars_of (clauses i) ->
  assignment E s h v = holds m v.
Proof.
  intros Hi Hm Hv. unfold assignment. rewrite (gderef_model E s h v i m) by done.
  by destruct (holds m v).
Qed.

Lemma to_jint_range (z : Z) : in_jint (to_jint z).
Proof.
  unfold in_jint, to_jint.
  pose proof (Z.mod_pos_bound (z + 2 ^ 31) (2 ^ 32)). lia.
Qed.

Lemma to_jint_id (z : Z) : in_jint z -> to_jint z = z.
Proof.
  unfold in_jint, to_jint. intros Hz. rewrite Z.mod_small by lia. lia.
Qed.

End Table.

(** ** Facts about sessions *)

Section Sessions.

Variable E : engine.

Implicit Types (s : store) (h v : Z) (c : call) (r : reply)
  (cs : list call) (log : list (call * reply)).

Lemma run_app s cs1 cs2 :
  run E s (cs1 ++ cs2) =
  let '(s1, log1) := run E s cs1 in
  let '(s2, log2) := run E s1 cs2 in
  (s2, log1 ++ log2).
Proof.
  revert s. induction cs1 as [|c cs1 IH]; intros s; simpl.
  - by destruct (run E s cs2).
  - destruct (step E s c) as [s1 r]. rewrite IH.
    destruct (run E s1 cs1) as [s2 log1]. by destruct (run E s2 cs2).
Qed.

Lemma submitted_cons h (e : call * reply) log :
  submitted h (e :: log) = option_list (accepted_by h e) ++ submitted h log.
Proof.
  unfold submitted.
  change (omap (accepted_by h) (e :: log))
    with (match accepted_by h e with
          | Some x => x :: omap (accepted_by h) log
          | None => omap (accepted_by h) log
          end).
  by destruct (accepted_by h e).
Qed.

Lemma submitted_app h log1 log2 :
  submitted h (log1 ++ log2) = submitted h log1 ++ submitted h log2.
Proof. unfold submitted. apply omap_app. Qed.

Lemma created_cons (e : call * reply) log :
  created (e :: log) = option_list (created_by e) ++ created log.
Proof.
  unfold created.
  change (omap created_by (e :: log))
    with (match created_by e with
          | Some x => x :: omap created_by log
          | None => omap created_by log
          end).
  by destruct (created_by e).
Qed.

(** One call adds to the database of a handle exactly the clause that [gadd]
    accepted for it. *)
Lemma step_clauses s c s' r h :
  step E s c = (s', r) ->
  clauses_at s' h = clauses_at s h ++ option_list (accepted_by h (c, r)).
Proof.
  destruct c as [|h0 cl|h0|h0 t|h0 v0]; simpl.
  - intros [= <- <-]. simpl. rewrite app_nil_r. unfold clauses_at.
    pose proof (instance_at_ginit s h) as Hi. simpl in Hi. rewrite Hi.
    case_bool_decide as Heq; [|done]. subst h.
    pose proof (proj1 (ginit_fresh s)) as Hn. simpl in Hn. by rewrite Hn.
  - destruct (gadd E s h0 cl) as [s1 b] eqn:Hadd. intros [= <- <-].
    unfold clauses_at at 1.
    pose proof (instance_at_gadd E s h0 cl h) as Hi. rewrite Hadd in Hi.
    simpl in Hi. rewrite Hi. clear Hi.
    destruct b; simpl.
    + rewrite andb_true_r. rewrite (bool_decide_ext (h = h0) (h0 = h)) by done.
      case_bool_decide; simpl; [by subst|by rewrite app_nil_r].
    + by rewrite andb_false_r, app_nil_r.
  - destruct (gsat s h0) as [s1 b] eqn:Hsat. intros [= <- <-].
    simpl. rewrite app_nil_r. unfold clauses_at at 1.
    pose proof (instance_at_solve_with None s h0 h) as Hi.
    unfold gsat in Hsat. rewrite Hsat in Hi. simpl in Hi. rewrite Hi.
    case_bool_decide; [|done]. subst. unfold clauses_at.
    by destruct (instance_at s h0).
  - destruct (gsat_time E s h0 t) as [s1 b] eqn:Hsat. intros [= <- <-].
    simpl. rewrite app_nil_r. unfold clauses_at at 1.
    pose proof (instance_at_solve_with (Some (budget_of E t)) s h0 h) as Hi.
    unfold gsat_time in Hsat. rewrite Hsat in Hi. simpl in Hi. rewrite Hi.
    case_bool_decide; [|done]. subst. unfold clauses_at.
    by destruct (instance_at s h0).
  - intros [= <- <-]. simpl. by rewrite app_nil_r.
Qed.

(** The database of a handle after a session is what it was before, followed
    by the clauses submitted in the session. *)
Lemma run_clauses s cs s' log h :
  run E s cs = (s', log) ->
  clauses_at s' h = clauses_at s h ++ submitted h log.
Proof.
  revert s s' log. induction cs as [|c cs IH]; intros s s' log; simpl.
  - intros [= <- <-]. by rewrite app_nil_r.
  - destruct (step E s c) as [s1 r] eqn:Hstep.
    destruct (run E s1 cs) as [s2 log1] eqn:Hrun. intros [= <- <-].
    rewrite (IH _ _ _ Hrun), (step_clauses _ _ _ _ _ Hstep).
    by rewrite submitted_cons, <- app_assoc.
Qed.

(** A call other than a solve on the handle leaves it without a model. *)
Lemma step_no_model s c s' r h :
  is_solve_on h c = false -> step E s c = (s', r) ->
  model_at s h = None -> model_at s' h = None.
Proof.
  unfold model_at. intros Hc Hstep Hm. destruct c as [|h0 cl|h0|h0 t|h0 v0]; simpl in *.
  - injection Hstep as <- <-.
    pose proof (instance_at_ginit s h) as Hi. simpl in Hi. rewrite Hi.
    by case_bool_decide.
  - destruct (gadd E s h0 cl) as [s1 b] eqn:Hadd. injection Hstep as <- <-.
    pose proof (instance_at_gadd E s h0 cl h) as Hi. rewrite Hadd in Hi.
    simpl in Hi. rewrite Hi. by destruct (_ && _).
  - destruct (gsat s h0) as [s1 b] eqn:Hsat. injection Hstep as <- <-.
    pose proof (instance_at_solve_with None s h0 h) as Hi.
    unfold gsat in Hsat. rewrite Hsat in Hi. simpl in Hi. rewrite Hi.
    case_bool_decide as Heq; [|done]. subst h. by rewrite bool_decide_eq_true_2 in Hc.
  - destruct (gsat_time E s h0 t) as [s1 b] eqn:Hsat. injection Hstep as <- <-.
    pose proof (instance_at_solve_with (Some (budget_of E t)) s h0 h) as Hi.
    unfold gsat_time in Hsat. rewrite Hsat in Hi. simpl in Hi. rewrite Hi.
    case_bool_decide as Heq; [|done]. subst h. by rewrite bool_decide_eq_true_2 in Hc.
  - by injection Hstep as <- <-.
Qed.

Lemma run_no_model s cs s' log h :
  forallb (fun c => negb (is_solve_on h c)) cs = true ->
  run E s cs = (s', log) ->
  model_at s h = None -> model_at s' h = None.
Proof.
  revert s s' log. induction cs as [|c cs IH]; intros s s' log; simpl.
  - by intros _ [= <- <-].
  - intros [Hc Hcs]%andb_prop. apply negb_true_iff in Hc.
    destruct (step E s c) as [s1 r] eqn:Hstep.
    destruct (run E s1 cs) as [s2 log1] eqn:Hrun. intros [= <- <-] Hm.
    eapply IH; [done..|]. by eapply step_no_model.
Qed.

(** A handle names an instance after a session exactly when it did before or
    [ginit] returned it in the session. *)
Lemma step_live s c s' r h :
  step E s c = (s', r) ->
  is_Some (instance_at s' h) <->
  is_Some (instance_at s h) \/ created_by (c, r) = Some h.
Proof.
  destruct c as [|h0 cl|h0|h0 t|h0 v0]; simpl.
  - intros [= <- <-]. pose proof (instance_at_ginit s h) as Hi. simpl in Hi.
    rewrite Hi. case_bool_decide as Heq.
    + subst. split; [by right|by eexists].
    + split; [by left|]. intros [?|[= ?]]; [done|]. by subst.
  - destruct (gadd E s h0 cl) as [s1 b] eqn:Hadd. intros [= <- <-].
    pose proof (instance_at_gadd E s h0 cl h) as Hi. rewrite Hadd in Hi.
    simpl in Hi. rewrite Hi. destruct (_ && _) eqn:Hb.
    + apply andb_prop in Hb as [Heq%bool_decide_eq_true ->]. subst h0.
      unfold gadd in Hadd. destruct (instance_at s h) eqn:Hh; [|done].
      split; [by left|by eexists].
    + split; [by left|]. by intros [?|?].
  - destruct (gsat s h0) as [s1 b] eqn:Hsat. intros [= <- <-].
    pose proof (instance_at_solve_with None s h0 h) as Hi.
    unfold gsat in Hsat. rewrite Hsat in Hi. simpl in Hi. rewrite Hi.
    case_bool_decide; [subst; rewrite fmap_is_Some|]; naive_solver.
  - destruct (gsat_time E s h0 t) as [s1 b] eqn:Hsat. intros [= <- <-].
    pose proof (instance_at_solve_with (Some (budget_of E t)) s h0 h) as Hi.
    unfold gsat_time in Hsat. rewrite Hsat in Hi. simpl in Hi. rewrite Hi.
    case_bool_decide; [subst; rewrite fmap_is_Some|]; naive_solver.
  - intros [= <- <-]. naive_solver.
Qed.

Lemma run_live s cs s' log h :
  run E s cs = (s', log) ->
  is_Some (instance_at s' h) <-> is_Some (instance_at s h) \/ h ∈ created log.
Proof.
  revert s s' log. induction cs as [|c cs IH]; intros s s' log; simpl.
  - intros [= <- <-]. unfold created. simpl. rewrite elem_of_nil. tauto.
  - destruct (step E s c) as [s1 r] eqn:Hstep.
    destruct (run E s1 cs) as [s2 log1] eqn:Hrun. intros [= <- <-].
    rewrite (IH _ _ _ Hrun), (step_live _ _ _ _ h Hstep), created_cons.
    destruct (created_by (c, r)) as [h1|]; simpl.
    + rewrite elem_of_cons. split; [|naive_solver].
      intros [[?|[= ->]]|?]; auto.
    + naive_solver.
Qed.

End Sessions.

(** ** Solving *)

Section Solving.

Variable E : engine.

Implicit Types (s : store) (h v : Z) (cs : list clause).

(** After a solve that answered true, the assignment read through [gderef]
    makes the whole database of the handle true. *)
Lemma solve_with_sound (budget : option nat) s h s' :
  solve_with budget s h = (s', true) ->
  formula_true (assignment E s' h) (clauses_at s' h) = true.
Proof.
  intros Hsolve.
  pose proof (solve_with_result budget s h) as Hres.
  pose proof (instance_at_solve_with budget s h h) as Hat.
  rewrite Hsolve in Hres, Hat. simpl in Hres, Hat.
  rewrite bool_decide_eq_true_2 in Hat by done.
  destruct (instance_at s h) as [i|]; [|done]. simpl in Hres, Hat.
  destruct (search budget (clauses i)) as [m| |] eqn:Hsearch; try done.
  unfold clauses_at. rewrite Hat. simpl.
  rewrite (formula_true_ext _ (holds m)); [by eapply search_sound|].
  intros v Hv. by eapply assignment_model.
Qed.

(** A solve that answered false leaves the handle without a model. *)
Lemma solve_with_failed (budget : option nat) s h s' :
  solve_with budget s h = (s', false) -> model_at s' h = None.
Proof.
  intros Hsolve.
  pose proof (solve_with_result budget s h) as Hres.
  pose proof (instance_at_solve_with budget s h h) as Hat.
  rewrite Hsolve in Hres, Hat. simpl in Hres, Hat.
  rewrite bool_decide_eq_true_2 in Hat by done.
  unfold model_at. rewrite Hat.
  destruct (instance_at s h) as [i|]; [|done]. simpl in *.
  by destruct (search budget (clauses i)).
Qed.

Lemma gadd_result s h (c : clause) :
  (gadd E s h c).2 = bool_decide (is_Some (instance_at s h)) && well_formed E c.
Proof.
  unfold gadd. destruct (instance_at s h) as [i|].
  - rewrite bool_decide_eq_true_2 by by eexists. by destruct (well_formed E c).
  - rewrite bool_decide_eq_false_2; [done|]. by intros [? ?].
Qed.

(** Adding clauses to an unsolved instance: the accepted ones are appended in
    order. *)
Lemma add_all_at s h cs (i : instance) :
  instance_at s h = Some i -> model i = None ->
  instance_at (add_all E s h cs) h =
  Some {| clauses := clauses i ++ List.filter (well_formed E) cs; model := None |}.
Proof.
  revert s i. induction cs as [|c cs IH]; intros s i Hi Hm.
  - simpl. rewrite app_nil_r, Hi. destruct i. by simplify_eq/=.
  - unfold add_all. simpl. fold (add_all E (gadd E s h c).1 h cs).
    pose proof (instance_at_gadd E s h c h) as Hat.
    rewrite gadd_result, Hi in Hat. unfold clauses_at in Hat. rewrite Hi in Hat.
    rewrite !bool_decide_eq_true_2 in Hat by (done || by eexists). simpl in Hat.
    destruct (well_formed E c); simpl in Hat.
    + rewrite (IH _ _ Hat) by done. simpl. by rewrite <- app_assoc.
    + by rewrite (IH _ _ Hat).
Qed.

(** The answer for a fresh instance is a function of the accepted clauses
    alone. *)
Lemma solve_fresh_eq s cs :
  solve_fresh E s cs = satisfiable (search None (List.filter (well_formed E) cs)).
Proof.
  unfold solve_fresh. destruct (ginit s) as [s1 h] eqn:Hinit.
  pose proof (ginit_fresh s) as [_ Hfresh]. rewrite Hinit in Hfresh. simpl in Hfresh.
  unfold gsat. rewrite solve_with_result.
  by rewrite (add_all_at _ _ cs _ Hfresh).
Qed.

(** It is the truth of the matter: true exactly when some assignment makes
    all accepted clauses true. *)
Lemma solve_fresh_correct s cs :
  solve_fresh E s cs = true <->
  exists a, formula_true a (List.filter (well_formed E) cs) = true.
Proof. rewrite solve_fresh_eq. apply search_satisfiable_iff. Qed.

(** [solve_fresh] is the reply to the last call of the session that creates
    an instance, adds the clauses and solves. *)
Lemma run_add_all s h cs :
  (run E s (Gadd h <$> cs)).1 = add_all E s h cs.
Proof.
  revert s. induction cs as [|c cs IH]; intros s; [done|].
  cbn [fmap list_fmap run step]. destruct (gadd E s h c) as [s1 b] eqn:Hadd.
  specialize (IH s1). destruct (run E s1 (Gadd h <$> cs)) as [s2 log].
  simpl in *. unfold add_all in *. simpl. by rewrite Hadd.
Qed.

Lemma solve_fresh_session s cs :
  let h := (ginit s).2 in
  last (run E s (Ginit :: (Gadd h <$> cs) ++ [Gsat h])).2
  = Some (Gsat h, RBool (solve_fresh E s cs)).
Proof.
  intros h. unfold solve_fresh. subst h.
  destruct (ginit s) as [s1 h] eqn:Hinit. cbn [run step snd]. rewrite Hinit.
  rewrite run_app. pose proof (run_add_all s1 h cs) as Hadd.
  destruct (run E s1 (Gadd h <$> cs)) as [s2 log]. simpl in Hadd. subst s2.
  cbn [run step]. destruct (gsat (add_all E s1 h cs) h) as [s3 b].
  cbn [snd]. by rewrite app_comm_cons, last_snoc.
Qed.

End Solving.

(** ** The declarations of the header *)

Lemma header_coherent : forallb coherent glucp_JPGlucose = true.
Proof. vm_compute. reflexivity. Qed.

Example parse_gadd :
  parse_descriptor (d_signature Java_glucp_JPGlucose_gadd)
  = Some ([TLong; TArray TInt], TBoolean).
Proof. reflexivity. Qed.

Example mangle_gsat_time : mangle "gsat_time" = "gsat_1time"%string.
Proof. reflexivity. Qed.

Lemma elem_of_header (d : native_decl) :
  d ∈ glucp_JPGlucose <->
  d = Java_glucp_JPGlucose_ginit \/ d = Java_glucp_JPGlucose_gadd \/
  d = Java_glucp_JPGlucose_gsat \/ d = Java_glucp_JPGlucose_gsat_1time \/
  d = Java_glucp_JPGlucose_gderef.
Proof.
  unfold glucp_JPGlucose. rewrite !elem_of_cons, elem_of_nil. tauto.
Qed.


(** Properties of all declarations are checked declaration by declaration. *)
Ltac each_decl H :=
  apply elem_of_header in H;
  destruct H as [-> | [-> | [-> | [-> | ->]]]].

(** C1: the header declares exactly five entry points: [ginit] (initialize a
    solver instance), [gadd] (add a clause), [gsat] (solve without a time
    bound), [gsat_time] (solve with a time bound) and [gderef] (query an
    assigned value).  Every declaration is the entry point of one of these
    five operations, and no other method name is declared: there is no
    entry point to destroy, reset or cancel. *)
Theorem C1_five_entry_points :
  d_method <$> glucp_JPGlucose
    = ["ginit"; "gadd"; "gsat"; "gsat_time"; "gderef"]%string /\
  length glucp_JPGlucose = 5%nat /\
  NoDup (d_symbol <$> glucp_JPGlucose) /\
  (forall d, d ∈ glucp_JPGlucose <-> exists op, d = entry_point op) /\
  (forall m, is_Some (find_method m) <->
             m ∈ ["ginit"; "gadd"; "gsat"; "gsat_time"; "gderef"]%string).
Proof.
  split; [reflexivity|]. split; [reflexivity|]. split; [|split].
  - by_computation.
  - intros d. rewrite elem_of_header. split.
    + intros [-> | [-> | [-> | [-> | ->]]]];
        [by exists create | by exists add_clause | by exists solve
        | by exists solve_with_timeout | by exists deref].
    + intros [[] ->]; simpl; tauto.
  - intros m. unfold find_method, glucp_JPGlucose. rewrite !elem_of_cons, elem_of_nil.
    simpl. split.
    + repeat (case_bool_decide; [subst m; tauto|]).
      by intros [? [=]].
    + intros [-> | [-> | [-> | [-> | [-> | []]]]]]; vm_compute; by eexists.
Qed.

(** C5: [ginit] takes nothing beyond the two call-context parameters and
    returns a [jlong], a 64-bit integer.  The result is a bare number: it is
    not a status, not a nullable reference and not void, and no parameter is
    left through which a failure could be reported. *)
Theorem C5_ginit_signature :
  context_params Java_glucp_JPGlucose_ginit = [JNIEnv_ptr; jclass] /\
  java_params Java_glucp_JPGlucose_ginit = [] /\
  parse_descriptor (d_signature Java_glucp_JPGlucose_ginit) = Some ([], TLong) /\
  d_ret Java_glucp_JPGlucose_ginit = jlong /\
  bits (d_ret Java_glucp_JPGlucose_ginit) = Some 64 /\
  is_reference (d_ret Java_glucp_JPGlucose_ginit) = false /\
  d_ret Java_glucp_JPGlucose_ginit <> jboolean /\
  d_ret Java_glucp_JPGlucose_ginit <> jvoid /\
  d_params Java_glucp_JPGlucose_ginit
    = context_params Java_glucp_JPGlucose_ginit.
Proof. repeat split; (reflexivity || discriminate). Qed.

(** C8: every declared entry point starts with the two call-context
    parameters; its first argument after them is the 64-bit handle, except
    for [ginit], which has no argument at all. *)
Theorem C8_handle_first (d : native_decl) :
  d ∈ glucp_JPGlucose ->
  context_params d = [JNIEnv_ptr; jclass] /\
  first_arg d =
    (if bool_decide (d = Java_glucp_JPGlucose_ginit) then None else Some jlong) /\
  takes_handle d = negb (bool_decide (d = Java_glucp_JPGlucose_ginit)) /\
  (d = Java_glucp_JPGlucose_ginit <-> java_params d = []) /\
  bits jlong = Some 64.
Proof.
  intros Hd. each_decl Hd; repeat split; try reflexivity; try discriminate.
Qed.

(** C9: every entry point is a static native method: the receiver, the
    second call-context parameter, is a [jclass].  No [jobject] occurs in any
    prototype, and the only reference among the arguments is the clause array
    of [gadd]; a solver is named by the [jlong] argument and by nothing
    else. *)
Theorem C9_static_bindings (d : native_decl) :
  d ∈ glucp_JPGlucose ->
  is_static d = true /\
  receiver d = Some jclass /\
  receiver d <> Some jobject /\
  (jobject ∉ d_params d) /\
  d_ret d <> jobject /\
  List.filter is_reference (java_params d)
    = (if bool_decide (d = Java_glucp_JPGlucose_gadd) then [jintArray] else []) /\
  List.filter (fun t => bool_decide (bits t = Some 64)) (java_params d)
    = (if bool_decide (d = Java_glucp_JPGlucose_ginit) then [] else [jlong]).
Proof.
  intros Hd. each_decl Hd; repeat split; try reflexivity; try discriminate;
    by_computation.
Qed.

(** C10: [ginit] is the only entry point that returns the handle type
    [jlong]; every other entry point takes a [jlong] and returns a
    [jboolean] or a [jint], and [ginit] itself takes no [jlong]. *)
Theorem C10_handles_come_from_ginit (d : native_decl) :
  d ∈ glucp_JPGlucose ->
  (d_ret d = jlong <-> d = Java_glucp_JPGlucose_ginit) /\
  (jlong ∈ java_params d <-> d <> Java_glucp_JPGlucose_ginit) /\
  (d = Java_glucp_JPGlucose_ginit \/ d_ret d = jboolean \/ d_ret d = jint).
Proof.
  intros Hd. each_decl Hd; unfold java_params; simpl;
    rewrite ?elem_of_cons, ?elem_of_nil;
    intuition (discriminate || congruence || auto).
Qed.


(** ** The protocol behind the declarations *)

Section Protocol_claims.

Variable E : engine.

Implicit Types (s : store) (h v t : Z) (c : clause)
  (calls : list call) (log : list (call * reply)).

(** C2: [gsat] and [gsat_time] are declared with the result type [jboolean],
    and [gsat_time] takes its bound as a [jint], a 32-bit integer.  For every
    table, handle and bound the reply is true only when the search found a
    model; a proof of unsatisfiability and an abandoned search both reply
    false, as does a handle that names no instance.  The last part exhibits
    an unsatisfiable database and a satisfiable one whose search is
    abandoned: the replies are equal. *)
Theorem C2_solve_replies_boolean s h t :
  d_ret Java_glucp_JPGlucose_gsat = jboolean /\
  d_ret Java_glucp_JPGlucose_gsat_1time = jboolean /\
  java_params Java_glucp_JPGlucose_gsat = [jlong] /\
  java_params Java_glucp_JPGlucose_gsat_1time = [jlong; jint] /\
  parse_descriptor (d_signature Java_glucp_JPGlucose_gsat)
    = Some ([TLong], TBoolean) /\
  parse_descriptor (d_signature Java_glucp_JPGlucose_gsat_1time)
    = Some ([TLong; TInt], TBoolean) /\
  bits jint = Some 32 /\
  match instance_at s h with
  | Some i =>
      match search (Some (budget_of E t)) (clauses i) with
      | Sat _ => (gsat_time E s h t).2 = true
      | Unsat => (gsat_time E s h t).2 = false
      | Unknown => (gsat_time E s h t).2 = false
      end /\
      match search None (clauses i) with
      | Sat _ => (gsat s h).2 = true
      | Unsat => (gsat s h).2 = false
      | Unknown => False
      end
  | None => (gsat_time E s h t).2 = false /\ (gsat s h).2 = false
  end /\
  (search (Some 1%nat) [[1]; [-1]] = Unknown /\
   search (Some 2%nat) [[1]; [-1]] = Unsat /\
   search (Some 1%nat) [[1]] = Unknown /\
   search None [[1]] = Sat [1] /\
   satisfiable Unsat = satisfiable Unknown).
Proof.
  do 7 (split; [reflexivity|]). split; [|by vm_compute].
  unfold gsat_time, gsat. rewrite !solve_with_result.
  destruct (instance_at s h) as [i|]; [|done]. simpl. split.
  - by destruct (search (Some _) _).
  - pose proof (search_complete_decides (clauses i)).
    by destruct (search None _).
Qed.

(** C3: in any session that ends with a [gsat] on a handle answering true,
    the assignment read through [gderef] makes every clause true that
    [gadd] accepted for the handle in the session, and with them the whole
    database of the handle. *)
Theorem C3_deref_satisfies_clauses s calls h s' log :
  run E s (calls ++ [Gsat h]) = (s', log) ->
  last log = Some (Gsat h, RBool true) ->
  formula_true (assignment E s' h) (clauses_at s' h) = true /\
  clauses_at s' h = clauses_at s h ++ submitted h log /\
  forall c, c ∈ submitted h log -> clause_true (assignment E s' h) c = true.
Proof.
  intros Hrun Hlast.
  assert (Hall : formula_true (assignment E s' h) (clauses_at s' h) = true).
  { rewrite run_app in Hrun. destruct (run E s calls) as [s1 log1].
    cbn [run step] in Hrun. destruct (gsat s1 h) as [s2 b] eqn:Hsat.
    injection Hrun as <- <-. rewrite last_snoc in Hlast.
    injection Hlast as ->. by eapply solve_with_sound. }
  pose proof (run_clauses E _ _ _ _ h Hrun) as Hdb.
  split; [done|]. split; [done|]. intros c Hc.
  eapply formula_true_elem; [done|]. rewrite Hdb. apply elem_of_app. by right.
Qed.

(** C4: the answer of [gsat] for a fresh instance to which a sequence of
    clauses was added is the same whatever the table the instance was
    created in. *)
Theorem C4_fresh_runs_agree (s1 s2 : store) (cs : list clause) :
  solve_fresh E s1 cs = solve_fresh E s2 cs.
Proof. by rewrite !solve_fresh_eq. Qed.

(** C6: [gadd] is declared with a [jlong] handle and a [jintArray], an array
    of 32-bit integers, and with the result type [jboolean].  It answers true
    exactly when the handle names an instance and the clause is accepted,
    and then the clause is the last of the database; otherwise it answers
    false and the table is as before. *)
Theorem C6_gadd_status s h c :
  java_params Java_glucp_JPGlucose_gadd = [jlong; jintArray] /\
  d_ret Java_glucp_JPGlucose_gadd = jboolean /\
  parse_descriptor (d_signature Java_glucp_JPGlucose_gadd)
    = Some ([TLong; TArray TInt], TBoolean) /\
  bits jint = Some 32 /\
  match gadd E s h c with
  | (s', true) =>
      is_Some (instance_at s h) /\ well_formed E c = true /\
      clauses_at s' h = clauses_at s h ++ [c]
  | (s', false) =>
      (instance_at s h = None \/ well_formed E c = false) /\ s' = s
  end.
Proof.
  do 4 (split; [reflexivity|]).
  pose proof (instance_at_gadd E s h c h) as Hat. revert Hat.
  unfold gadd, clauses_at. destruct (instance_at s h) as [i|]; [|by auto].
  destruct (well_formed E c); [|by auto]. simpl.
  rewrite bool_decide_eq_true_2 by done. simpl. intros ->. by eauto.
Qed.

(** C7: [gderef] is declared with a [jlong] handle and a [jint] index and
    with the result type [jint]; its result is a 32-bit integer.  After a
    session without a solve on the handle the result is whatever the engine
    yields for an unspecified query.  After a [gsat] answering false it is
    the same; after a [gsat] answering true the variables of the database
    read as 0 or 1, the same for every engine. *)
Theorem C7_gderef_specified_after_solve calls s1 log s h v :
  run E [] calls = (s1, log) ->
  forallb (fun k => negb (is_solve_on h k)) calls = true ->
  java_params Java_glucp_JPGlucose_gderef = [jlong; jint] /\
  d_ret Java_glucp_JPGlucose_gderef = jint /\
  parse_descriptor (d_signature Java_glucp_JPGlucose_gderef)
    = Some ([TLong; TInt], TInt) /\
  bits jint = Some 32 /\
  in_jint (gderef E s h v) /\
  gderef E s1 h v = to_jint (unspecified E h v) /\
  match gsat s h with
  | (s2, true) =>
      if bool_decide (v ∈ vars_of (clauses_at s2 h))
      then (gderef E s2 h v = 0 \/ gderef E s2 h v = 1) /\
           forall E', gderef E' s2 h v = gderef E s2 h v
      else gderef E s2 h v = to_jint (unspecified E h v)
  | (s2, false) => gderef E s2 h v = to_jint (unspecified E h v)
  end.
Proof.
  intros Hrun Hcalls. do 4 (split; [reflexivity|]). split; [|split].
  - unfold gderef. destruct (instance_at s h) as [i|]; [|apply to_jint_range].
    destruct (model i); [|apply to_jint_range].
    case_bool_decide; [|apply to_jint_range].
    unfold in_jint. destruct (holds _ _); lia.
  - apply gderef_no_model. eapply run_no_model; [done..|apply model_at_nil].
  - destruct (gsat s h) as [s2 [|]] eqn:Hsat.
    + pose proof (solve_with_result None s h) as Hres.
      pose proof (instance_at_solve_with None s h h) as Hat.
      unfold gsat in Hsat. rewrite Hsat in Hres, Hat. simpl in Hres, Hat.
      rewrite bool_decide_eq_true_2 in Hat by done.
      destruct (instance_at s h) as [i|]; [|done]. simpl in Hres, Hat.
      destruct (search None (clauses i)) as [m| |]; try done. simpl in Hat.
      unfold clauses_at, gderef. rewrite Hat. simpl.
      case_bool_decide; [|done]. split; [|done]. destruct (holds m v); auto.
    + apply gderef_no_model. by eapply solve_with_failed.
Qed.

End Protocol_claims.

(** ** The claims at concrete inputs *)

Lemma witness_handle_first :
  Java_glucp_JPGlucose_gsat_1time ∈ glucp_JPGlucose /\
  first_arg Java_glucp_JPGlucose_gsat_1time = Some jlong.
Proof.
  assert (Hd : Java_glucp_JPGlucose_gsat_1time ∈ glucp_JPGlucose) by by_computation.
  split; [exact Hd|].
  exact (proj1 (proj2 (C8_handle_first Java_glucp_JPGlucose_gsat_1time Hd))).
Defined.

Lemma witness_static_bindings :
  Java_glucp_JPGlucose_gadd ∈ glucp_JPGlucose /\
  receiver Java_glucp_JPGlucose_gadd = Some jclass.
Proof.
  assert (Hd : Java_glucp_JPGlucose_gadd ∈ glucp_JPGlucose) by by_computation.
  split; [exact Hd|].
  exact (proj1 (proj2 (C9_static_bindings Java_glucp_JPGlucose_gadd Hd))).
Defined.

Lemma witness_handles_come_from_ginit :
  Java_glucp_JPGlucose_gderef ∈ glucp_JPGlucose /\
  (Java_glucp_JPGlucose_gderef = Java_glucp_JPGlucose_ginit \/
   d_ret Java_glucp_JPGlucose_gderef = jboolean \/
   d_ret Java_glucp_JPGlucose_gderef = jint).
Proof.
  assert (Hd : Java_glucp_JPGlucose_gderef ∈ glucp_JPGlucose) by by_computation.
  split; [exact Hd|].
  exact (proj2 (proj2 (C10_handles_come_from_ginit Java_glucp_JPGlucose_gderef Hd))).
Defined.

(** The first scenario of the spec: after the solve, both clauses are true
    under the assignment read back. *)
Lemma witness_deref_satisfies_clauses :
  let r := run example_engine [] (example_session ++ [Gsat 0]) in
  run example_engine [] (example_session ++ [Gsat 0]) = (r.1, r.2) /\
  last r.2 = Some (Gsat 0, RBool true) /\
  [1; 2] ∈ submitted 0 r.2 /\
  clause_true (assignment example_engine r.1 0) [1; 2] = true.
Proof.
  intros r.
  assert (Hrun : run example_engine [] (example_session ++ [Gsat 0]) = (r.1, r.2))
    by (vm_compute; reflexivity).
  assert (Hlast : last r.2 = Some (Gsat 0, RBool true))
    by (vm_compute; reflexivity).
  assert (Hin : [1; 2] ∈ submitted 0 r.2) by by_computation.
  split; [exact Hrun|]. split; [exact Hlast|]. split; [exact Hin|].
  exact (proj2 (proj2 (C3_deref_satisfies_clauses example_engine []
                         example_session 0 r.1 r.2 Hrun Hlast)) [1; 2] Hin).
Defined.

(** Before the solve of the first scenario, [gderef] yields the -1 of the
    example engine. *)
Lemma witness_gderef_before_solve :
  let r := run example_engine [] example_session in
  run example_engine [] example_session = (r.1, r.2) /\
  forallb (fun k => negb (is_solve_on 0 k)) example_session = true /\
  gderef example_engine r.1 0 1 = to_jint (-1).
Proof.
  intros r.
  assert (Hrun : run example_engine [] example_session = (r.1, r.2))
    by (vm_compute; reflexivity).
  assert (Hcalls : forallb (fun k => negb (is_solve_on 0 k)) example_session = true)
    by (vm_compute; reflexivity).
  split; [exact Hrun|]. split; [exact Hcalls|].
  exact (proj1 (proj2 (proj2 (proj2 (proj2 (proj2
           (C7_gderef_specified_after_solve example_engine example_session
              r.1 r.2 r.1 0 1 Hrun Hcalls))))))).
Defined.

(** ** The example scenarios of the spec *)

(** x1 or x2, not x1: satisfiable, x1 reads 0 and x2 reads 1. *)
Example scenario_satisfiable :
  run example_engine [] (example_session ++ [Gsat 0; Gderef 0 1; Gderef 0 2])
  = ([{| clauses := [[1; 2]; [-1]]; model := Some [2] |}],
     [(Ginit, RHandle 0); (Gadd 0 [1; 2], RBool true); (Gadd 0 [-1], RBool true);
      (Gsat 0, RBool true); (Gderef 0 1, RInt 0); (Gderef 0 2, RInt 1)]).
Proof. vm_compute. reflexivity. Qed.

(** x1, not x1: unsatisfiable. *)
Example scenario_unsatisfiable :
  (run example_engine [] [Ginit; Gadd 0 [1]; Gadd 0 [-1]; Gsat 0]).2
  = [(Ginit, RHandle 0); (Gadd 0 [1], RBool true); (Gadd 0 [-1], RBool true);
     (Gsat 0, RBool false)].
Proof. vm_compute. reflexivity. Qed.

(** A bound of 0 seconds tries no candidate; the answer is false although
    the clause has a model. *)
Example scenario_timeout_zero :
  solve_fresh_time example_engine [] [[1]] 0 = false /\
  solve_fresh example_engine [] [[1]] = true.
Proof. by vm_compute. Qed.

(** A rejected clause and a handle that names nothing answer false and
    change nothing. *)
Example scenario_rejections :
  run example_engine [] [Ginit; Gadd 0 [1; 0]; Gadd 7 [1]; Gadd (-1) [1]; Gsat 7]
  = ([fresh_instance],
     [(Ginit, RHandle 0); (Gadd 0 [1; 0], RBool false); (Gadd 7 [1], RBool false);
      (Gadd (-1) [1], RBool false); (Gsat 7, RBool false)]).
Proof. vm_compute. reflexivity. Qed.

(** ** The comment blocks and the prototypes *)

(** Every prototype carries the symbol that the JVM looks up for the static
    native method named in its comment block: [Java_], the class, an
    underscore and the method name with its underscores escaped as [_1].
    All five belong to the one class [glucp_JPGlucose]. *)
Theorem symbols_follow_comment_blocks (d : native_decl) :
  d ∈ glucp_JPGlucose ->
  d_class d = "glucp_JPGlucose"%string /\
  d_symbol d = jni_symbol (d_class d) (d_method d) /\
  d_symbol d = ("Java_glucp_JPGlucose_" +:+ mangle (d_method d))%string.
Proof. intros Hd. each_decl Hd; repeat split; reflexivity. Qed.

(** The C types of every prototype are those of the JVM descriptor in its
    comment block: the descriptor is well formed, its result type is the
    result type of the prototype, and its parameter types are the
    parameters of the prototype after the two call-context parameters, one
    for one. *)
Theorem prototypes_match_descriptors (d : native_decl) :
  d ∈ glucp_JPGlucose ->
  exists (ps : list jtype) (r : jtype),
    parse_descriptor (d_signature d) = Some (ps, r) /\
    ctype_of r = Some (d_ret d) /\
    mapM ctype_of ps = Some (java_params d) /\
    d_params d = context_params d ++ java_params d /\
    length (d_params d) = (2 + length ps)%nat.
Proof.
  intros Hd. each_decl Hd;
    [exists [], TLong | exists [TLong; TArray TInt], TBoolean
    | exists [TLong], TBoolean | exists [TLong; TInt], TBoolean
    | exists [TLong; TInt], TInt]; repeat split; reflexivity.
Qed.

(** No native method is overloaded: two declarations with the same method
    name, or with the same symbol, are the same declaration, and looking a
    declaration up by its method name finds it. *)
Theorem no_overloaded_method (d1 d2 : native_decl) :
  d1 ∈ glucp_JPGlucose -> d2 ∈ glucp_JPGlucose ->
  (d_method d1 = d_method d2 <-> d1 = d2) /\
  (d_symbol d1 = d_symbol d2 <-> d1 = d2) /\
  find_method (d_method d1) = Some d1.
Proof.
  intros H1 H2. each_decl H1; each_decl H2;
    (split; [|split]); try reflexivity; split; (done || discriminate).
Qed.

(** ** Including the header *)

Import Preprocessor.

Section Inclusion.

(** What including another file does to the macros is arbitrary. *)
Variable included : string -> gset string -> gset string.

Implicit Types (defs D : gset string) (st : pp_state).

Lemma cplusplus_after_define D : cplusplus ∈ D ∪ {[guard]} <-> cplusplus ∈ D.
Proof.
  rewrite elem_of_union, elem_of_singleton. split; [intros [?|[=]]; done|by left].
Qed.

Lemma linkage_of_emit (e : event) st : linkage_of (emit e st) = linkage_of st.
Proof. reflexivity. Qed.

Lemma prototypes_of_header : prototypes glucp_JPGlucose_h = glucp_JPGlucose.
Proof. reflexivity. Qed.

(** The state after the header, by whether its guard is defined once
    [<jni.h>] has been included. *)
Lemma include_header_eq defs :
  include_file included glucp_JPGlucose_h defs = Some
    (if bool_decide (guard ∈ included "jni.h" defs)
     then {| macros := included "jni.h" defs; conds := []; extern_blocks := 0;
             emitted := [Included "jni.h"] |}
     else {| macros := included "jni.h" defs ∪ {[guard]}; conds := [];
             extern_blocks := 0;
             emitted := Included "jni.h" :: (Declared C_linkage <$> glucp_JPGlucose) |}).
Proof.
  unfold include_file, glucp_JPGlucose_h.
  set (D := included "jni.h" defs).
  cbn -[union elem_of bool_decide]. fold guard. fold cplusplus. fold D.
  destruct (decide (guard ∈ D)) as [Hg|Hg].
  - rewrite (bool_decide_eq_false_2 (guard ∉ D)) by tauto.
    rewrite (bool_decide_eq_true_2 (guard ∈ D)) by done.
    cbn. done.
  - rewrite (bool_decide_eq_true_2 (guard ∉ D)) by done.
    rewrite (bool_decide_eq_false_2 (guard ∈ D)) by done.
    cbn -[union elem_of bool_decide].
    rewrite (bool_decide_ext _ _ (cplusplus_after_define D)).
    destruct (decide (cplusplus ∈ D)) as [Hc|Hc].
    + rewrite (bool_decide_eq_true_2 (cplusplus ∈ D)) by done.
      cbn -[union elem_of bool_decide].
      rewrite !(bool_decide_ext _ _ (cplusplus_after_define D)).
      rewrite !(bool_decide_eq_true_2 (cplusplus ∈ D)) by done.
      rewrite ?linkage_of_emit. unfold linkage_of. cbn -[union elem_of bool_decide].
      rewrite !(bool_decide_ext _ _ (cplusplus_after_define D)).
      rewrite !(bool_decide_eq_true_2 (cplusplus ∈ D)) by done.
      done.
    + rewrite (bool_decide_eq_false_2 (cplusplus ∈ D)) by done.
      cbn -[union elem_of bool_decide].
      rewrite !(bool_decide_ext _ _ (cplusplus_after_define D)).
      rewrite !(bool_decide_eq_false_2 (cplusplus ∈ D)) by done.
      rewrite ?linkage_of_emit. unfold linkage_of. cbn -[union elem_of bool_decide].
      rewrite !(bool_decide_ext _ _ (cplusplus_after_define D)).
      rewrite !(bool_decide_eq_false_2 (cplusplus ∈ D)) by done.
      done.
Qed.

(** Whatever macros are defined, and whether the compiler is a C or a C++
    compiler, including the header goes through: every conditional is closed
    by the end of the file and the [extern "C"] block that was opened is
    closed.  [<jni.h>] is included first, and every function the header
    declares has C linkage. *)
Theorem inclusion_is_balanced_with_C_linkage defs :
  exists st,
    include_file included glucp_JPGlucose_h defs = Some st /\
    conds st = [] /\
    extern_blocks st = 0%nat /\
    head (emitted st) = Some (Included "jni.h") /\
    Forall (fun p => p.1 = C_linkage) (declarations (emitted st)).
Proof.
  eexists. split; [apply include_header_eq|].
  case_bool_decide; repeat split; try reflexivity.
  - constructor.
  - cbn. repeat constructor.
Qed.

(** Where the guard macro is already defined the header declares nothing and
    defines nothing; [<jni.h>] is included all the same, its inclusion
    stands before the guard. *)
Theorem inclusion_with_guard_defined defs :
  guard ∈ included "jni.h" defs ->
  exists st,
    include_file included glucp_JPGlucose_h defs = Some st /\
    macros st = included "jni.h" defs /\
    emitted st = [Included "jni.h"] /\
    declarations (emitted st) = [].
Proof.
  intros Hg. eexists. split; [apply include_header_eq|].
  rewrite bool_decide_eq_true_2 by done. by repeat split.
Qed.

(** Where the guard macro is not defined the header defines it and declares
    its five functions, in the order of the file and with C linkage. *)
Theorem inclusion_with_guard_undefined defs :
  guard ∉ included "jni.h" defs ->
  exists st,
    include_file included glucp_JPGlucose_h defs = Some st /\
    macros st = included "jni.h" defs ∪ {[guard]} /\
    guard ∈ macros st /\
    declarations (emitted st) = (fun d => (C_linkage, d)) <$> glucp_JPGlucose.
Proof.
  intros Hg. eexists. split; [apply include_header_eq|].
  rewrite bool_decide_eq_false_2 by done. cbn [macros emitted].
  split; [done|]. split; [set_solver|reflexivity].
Qed.

(** Including the header a second time declares nothing, provided the files
    included in between do not undefine its guard. *)
Theorem second_inclusion_declares_nothing defs st1 :
  (forall f D, guard ∈ D -> guard ∈ included f D) ->
  include_file included glucp_JPGlucose_h defs = Some st1 ->
  exists st2,
    include_file included glucp_JPGlucose_h (macros st1) = Some st2 /\
    guard ∈ macros st1 /\
    emitted st2 = [Included "jni.h"] /\
    declarations (emitted st2) = [].
Proof.
  intros Hkeep Hfirst.
  assert (Hg : guard ∈ macros st1).
  { rewrite include_header_eq in Hfirst. injection Hfirst as <-.
    case_bool_decide; cbn [macros]; [done|set_solver]. }
  eexists. split; [apply include_header_eq|].
  rewrite bool_decide_eq_true_2 by by apply Hkeep. by repeat split.
Qed.

End Inclusion.

(** Without its [extern "C"] lines the header would declare the functions
    with C++ linkage to a C++ compiler. *)
Example extern_C_lines_matter :
  (fun st => declarations (emitted st))
    <$> include_file jni_h
          without_extern_C {[cplusplus]}
  = Some ((fun d => (Cxx_linkage, d)) <$> glucp_JPGlucose).
Proof. vm_compute. reflexivity. Qed.

(** ** The properties of the header at concrete inputs *)

Lemma witness_symbols_follow_comment_blocks :
  Java_glucp_JPGlucose_gsat_1time ∈ glucp_JPGlucose /\
  d_symbol Java_glucp_JPGlucose_gsat_1time
  = jni_symbol "glucp_JPGlucose" "gsat_time".
Proof.
  assert (Hd : Java_glucp_JPGlucose_gsat_1time ∈ glucp_JPGlucose) by by_computation.
  split; [exact Hd|].
  exact (proj1 (proj2 (symbols_follow_comment_blocks _ Hd))).
Defined.

Lemma witness_prototypes_match_descriptors :
  Java_glucp_JPGlucose_gadd ∈ glucp_JPGlucose /\
  exists ps r,
    parse_descriptor "(J[I)Z" = Some (ps, r) /\
    ctype_of r = Some jboolean /\
    mapM ctype_of ps = Some [jlong; jintArray] /\
    d_params Java_glucp_JPGlucose_gadd
    = [JNIEnv_ptr; jclass] ++ [jlong; jintArray] /\
    4%nat = (2 + length ps)%nat.
Proof.
  assert (Hd : Java_glucp_JPGlucose_gadd ∈ glucp_JPGlucose) by by_computation.
  split; [exact Hd|].
  exact (prototypes_match_descriptors _ Hd).
Defined.

Lemma witness_no_overloaded_method :
  Java_glucp_JPGlucose_gsat ∈ glucp_JPGlucose /\
  Java_glucp_JPGlucose_gsat_1time ∈ glucp_JPGlucose /\
  find_method "gsat" = Some Java_glucp_JPGlucose_gsat.
Proof.
  assert (H1 : Java_glucp_JPGlucose_gsat ∈ glucp_JPGlucose) by by_computation.
  assert (H2 : Java_glucp_JPGlucose_gsat_1time ∈ glucp_JPGlucose) by by_computation.
  split; [exact H1|]. split; [exact H2|].
  exact (proj2 (proj2 (no_overloaded_method _ _ H1 H2))).
Defined.

Lemma witness_inclusion_with_guard_defined :
  guard ∈ jni_h "jni.h" {[guard]} /\
  exists st,
    include_file jni_h glucp_JPGlucose_h
      {[guard]} = Some st /\
    macros st = jni_h "jni.h" {[guard]} /\
    emitted st = [Included "jni.h"] /\
    declarations (emitted st) = [].
Proof.
  assert (Hg : guard
               ∈ jni_h "jni.h" {[guard]})
    by by_computation.
  split; [exact Hg|].
  exact (inclusion_with_guard_defined jni_h _ Hg).
Defined.

Lemma witness_inclusion_with_guard_undefined :
  (guard ∉ jni_h "jni.h" {[cplusplus]}) /\
  exists st,
    include_file jni_h glucp_JPGlucose_h
      {[cplusplus]} = Some st /\
    macros st
    = jni_h "jni.h" {[cplusplus]} ∪ {[guard]} /\
    guard ∈ macros st /\
    declarations (emitted st)
    = (fun d => (C_linkage, d)) <$> glucp_JPGlucose.
Proof.
  assert (Hg : guard
               ∉ jni_h "jni.h" {[cplusplus]})
    by by_computation.
  split; [exact Hg|].
  exact (inclusion_with_guard_undefined jni_h _ Hg).
Defined.

Lemma witness_second_inclusion_declares_nothing :
  let first := include_file jni_h
                 glucp_JPGlucose_h ∅ in
  (forall f D, guard ∈ D -> guard ∈ jni_h f D) /\
  is_Some first /\
  forall st1, first = Some st1 ->
  exists st2,
    include_file jni_h glucp_JPGlucose_h
      (macros st1) = Some st2 /\
    guard ∈ macros st1 /\
    emitted st2 = [Included "jni.h"] /\
    declarations (emitted st2) = [].
Proof.
  intros first.
  assert (Hkeep : forall f D, guard ∈ D ->
                              guard ∈ jni_h f D).
  { intros f D HD. unfold jni_h. apply elem_of_union. by left. }
  split; [exact Hkeep|]. split.
  - subst first. rewrite include_header_eq. by eexists.
  - intros st1 Hfirst.
    exact (second_inclusion_declares_nothing jni_h ∅ st1 Hkeep Hfirst).
Defined.
